(** * OpenTPU character driver (src/driver/src/opentpu.c)

    A shallow embedding of the file operations of the [opentpu] kernel
    module: [dev_open], [dev_read], [dev_write] and [dev_release], over the
    module's static state ([message], [messageSize], [ioMutex]).

    Machine integers are [Z] with their wrap-around written out: [short]
    for [messageSize], [unsigned long] for the size handed to
    [copy_to_user], [size_t] for the lengths coming from user space.
    Errno values are returned negated, as the C code does. *)

From Stdlib Require Import ZArith List Bool Lia.
From Stdlib Require Import Strings.Byte.
Import ListNotations.
Open Scope Z_scope.

(** ** Machine integers *)

(** Conversion of an integer to a 16-bit signed [short] (two's complement
    wrap-around, as gcc does for [messageSize = len]). *)
Definition to_short (z : Z) : Z :=
  let m := z mod 65536 in if m >=? 32768 then m - 65536 else m.

(** Conversion of a [short] to [unsigned long] (the [n] argument of
    [copy_to_user]): sign extension, i.e. reduction modulo 2^64. *)
Definition to_ulong (z : Z) : Z := z mod 2 ^ 64.

Definition EFAULT : Z := 14.
Definition EBUSY : Z := 16.

(** ** Module state *)

(** [message] is the kernel memory starting at [static char message[256]]:
    indices [0 .. 255] are the array (the copies below never reach the
    other indices).  [messageSize] is the [static short].  [ioMutex] is
    [true] when the mutex is locked. *)
Record dev_state := mk_dev_state {
  message : Z -> byte;
  messageSize : Z;
  ioMutex : bool
}.

(** The declared capacity of [message]. *)
Definition capacity : Z := 256.

(** State after [mod_init]: [message] zero-initialised ([= {0}]),
    [messageSize] zero (static storage), mutex unlocked by [mutex_init]. *)
Definition init_state : dev_state :=
  {| message := fun _ => x00; messageSize := 0; ioMutex := false |}.

(** ** User-space copies *)

Definition INT_MAX : Z := 2 ^ 31 - 1.

(** [check_copy_size(addr, bytes, is_source)] (include/linux/thread_info.h),
    run by [copy_from_user] and [copy_to_user] before any copy: [sz] is
    [__builtin_object_size(addr, 0)] of the kernel buffer.  A copy larger
    than the object, or larger than [INT_MAX], is refused (with a warning). *)
Definition check_copy_size (sz bytes : Z) : bool :=
  negb ((0 <=? sz) && (sz <? bytes)) && negb (INT_MAX <? bytes).

(** [copy_from_user(to, from, n)] with [to = message] (the only kernel
    buffer the driver copies into; its object size is [capacity]).  If
    [check_copy_size] refuses, nothing is copied and [n] is returned.
    Otherwise: the user source is modelled by the list of bytes readable at
    [from] (reading faults just past its end); the readable prefix is
    copied and the rest of the [n] destination bytes is zero-filled, as
    Linux does.  The result is the new kernel memory and the number of
    bytes not copied. *)
Definition copy_from_user (to : Z -> byte) (from : list byte) (n : Z)
  : (Z -> byte) * Z :=
  if check_copy_size capacity n then
    let k := Z.min n (Z.of_nat (length from)) in
    (fun i => if (0 <=? i) && (i <? n)
              then (if i <? k then nth (Z.to_nat i) from x00 else x00)
              else to i,
     n - k)
  else (to, n).

(** The first [k] bytes of kernel memory [m]. *)
Definition fetch (m : Z -> byte) (k : nat) : list byte :=
  map (fun i => m (Z.of_nat i)) (seq 0 k).

(** [copy_to_user(to, from, n)] with [from = message] (object size
    [capacity]).  If [check_copy_size] refuses, nothing is copied and [n]
    is returned.  Otherwise the user destination is modelled by the number
    [acc] of bytes writable at [to].  The result is the list of bytes that
    land in user memory and the number of bytes not copied. *)
Definition copy_to_user (acc : N) (from : Z -> byte) (n : Z) : list byte * Z :=
  if check_copy_size capacity n then
    let k := Z.min n (Z.of_N acc) in
    (fetch from (Z.to_nat k), n - k)
  else ([], n).

(** ** File operations *)

(** [dev_open]: [mutex_trylock]; [-EBUSY] if it is already locked. *)
Definition dev_open (s : dev_state) : Z * dev_state :=
  if ioMutex s then (- EBUSY, s)
  else (0, {| message := message s; messageSize := messageSize s;
              ioMutex := true |}).

(** [dev_read(filep, buffer, len, offset)]: [acc] is the number of bytes
    writable at [buffer]; [len] is not used by the code.  Result: the
    return value, the bytes delivered into [buffer], the new state. *)
Definition dev_read (s : dev_state) (acc : N) (len : Z)
  : Z * list byte * dev_state :=
  let '(out, error_count) :=
    copy_to_user acc (message s) (to_ulong (messageSize s)) in
  if error_count =? 0
  then (0, out, {| message := message s; messageSize := 0;
                   ioMutex := ioMutex s |})
  else (- EFAULT, out, s).

(** [dev_write(filep, buffer, len, offset)]: [src] is the user memory
    readable at [buffer].  The copy result is only logged; [messageSize]
    gets [len] whatever happened, and [len] is returned. *)
Definition dev_write (s : dev_state) (src : list byte) (len : Z)
  : Z * dev_state :=
  let '(m', copied_from_user) := copy_from_user (message s) src len in
  (len, {| message := m'; messageSize := to_short len;
           ioMutex := ioMutex s |}).

(** [dev_release]: [mutex_unlock], unconditionally. *)
Definition dev_release (s : dev_state) : Z * dev_state :=
  (0, {| message := message s; messageSize := messageSize s;
         ioMutex := false |}).

(** ** Dispatch through the file table

    The handlers are not called directly: the kernel calls them through
    [fops] on [struct file]s.  [open(2)] allocates a new file and calls
    [dev_open]; only if that returns 0 is the file opened (a failed open
    never reaches [->release]).  [read(2)], [write(2)] and the final
    [close(2)] reach the handlers only for an opened file; on any other
    descriptor they fail with [-EBADF] before the driver is entered. *)

Definition EBADF : Z := 9.

Definition file := nat.

Inductive call :=
| SysOpen
| SysRead (f : file) (acc : N) (len : Z)
| SysWrite (f : file) (src : list byte) (len : Z)
| SysClose (f : file).

Record sys := mk_sys {
  dev : dev_state;
  opened : list file;
  next_file : file
}.

Definition sys_init : sys :=
  {| dev := init_state; opened := []; next_file := 0%nat |}.

Definition is_open (s : sys) (f : file) : bool :=
  existsb (Nat.eqb f) (opened s).

Definition sys_step (s : sys) (c : call) : Z * sys :=
  match c with
  | SysOpen =>
      let f := next_file s in
      let '(r, d) := dev_open (dev s) in
      if r =? 0
      then (r, {| dev := d; opened := f :: opened s; next_file := S f |})
      else (r, {| dev := d; opened := opened s; next_file := S f |})
  | SysRead f acc len =>
      if is_open s f
      then let '(r, _, d) := dev_read (dev s) acc len in
           (r, {| dev := d; opened := opened s; next_file := next_file s |})
      else (- EBADF, s)
  | SysWrite f src len =>
      if is_open s f
      then let '(r, d) := dev_write (dev s) src len in
           (r, {| dev := d; opened := opened s; next_file := next_file s |})
      else (- EBADF, s)
  | SysClose f =>
      if is_open s f
      then let '(r, d) := dev_release (dev s) in
           (r, {| dev := d; opened := remove Nat.eq_dec f (opened s);
                  next_file := next_file s |})
      else (- EBADF, s)
  end.

(** States reachable from module load by any sequence of system calls. *)
Inductive reachable : sys -> Prop :=
| reachable_init : reachable sys_init
| reachable_step s c : reachable s -> reachable (snd (sys_step s c)).

(** ** Module load and unload ([mod_init], [mod_exit])

    Kernel pointers are 64-bit unsigned values; an error pointer
    ([ERR_PTR(-e)]) is one of the last [MAX_ERRNO] values, as tested by
    [IS_ERR], and [PTR_ERR] reads it back as a signed [long]. *)

Definition MAX_ERRNO : Z := 4095.

Definition IS_ERR (p : Z) : bool := p >=? 2 ^ 64 - MAX_ERRNO.

(** [long] view of a 64-bit value. *)
Definition to_long (z : Z) : Z :=
  let m := z mod 2 ^ 64 in if m >=? 2 ^ 63 then m - 2 ^ 64 else m.

(** [int] view of a value (the [int] return of [mod_init]). *)
Definition to_int (z : Z) : Z :=
  let m := z mod 2 ^ 32 in if m >=? 2 ^ 31 then m - 2 ^ 32 else m.

Definition PTR_ERR (p : Z) : Z := to_long p.

Definition MINORBITS : Z := 20.

Definition MKDEV (ma mi : Z) : Z := Z.lor (Z.shiftl ma MINORBITS) mi.

(** The kernel services [mod_init] and [mod_exit] call, in the order they
    call them, with the values they pass and get back. *)
Inductive kcall :=
| KMutexInit
| KRegisterChrdev (result : Z)
| KUnregisterChrdev (major : Z)
| KClassCreate (result : Z)
| KClassUnregister (cls : Z)
| KClassDestroy (cls : Z)
| KDeviceCreate (cls devt result : Z)
| KDeviceDestroy (cls devt : Z)
| KMutexDestroy.

(** What the kernel answers during [mod_init]: the result of
    [register_chrdev] and the pointers returned by [class_create] and
    [device_create]. *)
Record init_env := mk_init_env {
  reg_result : Z;
  class_result : Z;
  device_result : Z
}.

(** The module's globals besides the file-operation state. *)
Record module := mk_module {
  majorNumber : Z;
  openTPUClass : Z;
  openTPUDevice : Z;
  devst : dev_state
}.

(** [mod_init]: the return value, the globals after it and the kernel
    calls it made. *)
Definition mod_init (env : init_env) (m : module)
  : Z * module * list kcall :=
  let d := {| message := message (devst m); messageSize := messageSize (devst m);
              ioMutex := false |} in
  let major := reg_result env in
  let t1 := [KMutexInit; KRegisterChrdev major] in
  let m1 := {| majorNumber := major; openTPUClass := openTPUClass m;
               openTPUDevice := openTPUDevice m; devst := d |} in
  if major <? 0 then (major, m1, t1)
  else
    let c := class_result env in
    let m2 := {| majorNumber := major; openTPUClass := c;
                 openTPUDevice := openTPUDevice m; devst := d |} in
    if IS_ERR c
    then (to_int (PTR_ERR c), m2,
          t1 ++ [KClassCreate c; KUnregisterChrdev major])
    else
      let dv := device_result env in
      let m3 := {| majorNumber := major; openTPUClass := c;
                   openTPUDevice := dv; devst := d |} in
      let t3 := t1 ++ [KClassCreate c; KDeviceCreate c (MKDEV major 0) dv] in
      if IS_ERR dv
      then (to_int (PTR_ERR dv), m3,
            t3 ++ [KClassDestroy c; KUnregisterChrdev major])
      else (0, m3, t3).

(** [mod_exit]: the kernel calls it makes. *)
Definition mod_exit (m : module) : list kcall :=
  [KDeviceDestroy (openTPUClass m) (MKDEV (majorNumber m) 0);
   KClassUnregister (openTPUClass m);
   KClassDestroy (openTPUClass m);
   KUnregisterChrdev (majorNumber m);
   KMutexDestroy].

(** Registrations held with the kernel, most recent first. *)
Inductive resource :=
| RChrdev (major : Z)
| RClass (cls : Z)
| RDevice (devt : Z).

(** Replays a call trace over the held registrations: a successful
    [register_chrdev], [class_create] or [device_create] acquires one; an
    unregister or destroy must release the most recently acquired one that
    is still held ([None] otherwise).  [class_unregister], the mutex calls
    and failed creations hold nothing. *)
Fixpoint held_after (st : list resource) (t : list kcall)
  : option (list resource) :=
  match t with
  | [] => Some st
  | k :: t' =>
      let pop (ok : resource -> bool) :=
        match st with
        | r :: st' => if ok r then held_after st' t' else None
        | [] => None
        end in
      match k with
      | KRegisterChrdev r =>
          if r <? 0 then held_after st t' else held_after (RChrdev r :: st) t'
      | KClassCreate p =>
          if IS_ERR p then held_after st t' else held_after (RClass p :: st) t'
      | KDeviceCreate _ devt p =>
          if IS_ERR p then held_after st t' else held_after (RDevice devt :: st) t'
      | KUnregisterChrdev ma =>
          pop (fun r => match r with RChrdev ma' => ma =? ma' | _ => false end)
      | KClassDestroy c =>
          pop (fun r => match r with RClass c' => c =? c' | _ => false end)
      | KDeviceDestroy _ devt =>
          pop (fun r => match r with RDevice d' => devt =? d' | _ => false end)
      | KMutexInit | KMutexDestroy | KClassUnregister _ => held_after st t'
      end
  end.

(** ** Sample inputs *)

(** The byte ['x']. *)
Definition bx : byte := x78.

(** The bytes of ["hello"]. *)
Definition hello : list byte := [x68; x65; x6c; x6c; x6f].

Example to_short_300 : to_short 300 = 300.
Proof. reflexivity. Qed.

Example to_short_40000 : to_short 40000 = -25536.
Proof. reflexivity. Qed.

Example hello_round :
  let s1 := snd (dev_open init_state) in
  let s2 := snd (dev_write s1 hello 5) in
  dev_read s2 5 5 = (0, hello, {| message := message s2; messageSize := 0;
                                  ioMutex := true |}).
Proof. reflexivity. Qed.

(** ** Helper lemmas *)

Lemma fetch_nth (f : Z -> byte) (l : list byte) :
  (forall i, (i < length l)%nat -> f (Z.of_nat i) = nth i l x00) ->
  fetch f (length l) = l.
Proof.
  intros H. apply nth_ext with (d := x00) (d' := x00).
  - unfold fetch. rewrite length_map, length_seq. reflexivity.
  - intros n Hn. unfold fetch in *. rewrite length_map, length_seq in Hn.
    set (g := fun i => f (Z.of_nat i)).
    rewrite nth_indep with (d' := g 0%nat)
      by (rewrite length_map, length_seq; exact Hn).
    rewrite map_nth, seq_nth by exact Hn. apply H, Hn.
Qed.

Lemma to_short_small (z : Z) : 0 <= z < 32768 -> to_short z = z.
Proof.
  intros Hz. unfold to_short. rewrite Z.mod_small by lia.
  destruct (Z.geb_spec z 32768); lia.
Qed.

Lemma to_ulong_small (z : Z) : 0 <= z < 2 ^ 64 -> to_ulong z = z.
Proof. intros Hz. unfold to_ulong. apply Z.mod_small, Hz. Qed.

(** A full copy of [m] puts [m] at the start of kernel memory. *)
Lemma check_copy_size_ok (n : Z) :
  n <= capacity -> check_copy_size capacity n = true.
Proof.
  unfold check_copy_size, capacity, INT_MAX. intros Hn.
  destruct (Z.ltb_spec 256 n); [lia|].
  destruct (Z.ltb_spec (2 ^ 31 - 1) n); [lia|]. reflexivity.
Qed.

Lemma check_copy_size_big (n : Z) :
  capacity < n -> check_copy_size capacity n = false.
Proof.
  unfold check_copy_size, capacity. intros Hn.
  destruct (Z.ltb_spec 256 n); [reflexivity|lia].
Qed.

Lemma copy_from_user_full (to : Z -> byte) (m : list byte) (i : nat) :
  Z.of_nat (length m) <= capacity ->
  (i < length m)%nat ->
  fst (copy_from_user to m (Z.of_nat (length m))) (Z.of_nat i) = nth i m x00.
Proof.
  intros Hm Hi. unfold copy_from_user. rewrite check_copy_size_ok by exact Hm.
  simpl. rewrite Z.min_id.
  destruct (Z.leb_spec 0 (Z.of_nat i)); [|lia].
  destruct (Z.ltb_spec (Z.of_nat i) (Z.of_nat (length m))); [|lia].
  simpl. rewrite Nat2Z.id. reflexivity.
Qed.


(** What a successful [dev_read] delivers and leaves behind. *)
Lemma dev_read_success (s : dev_state) (acc : N) (len : Z) :
  fst (fst (dev_read s acc len)) = 0 ->
  snd (fst (dev_read s acc len))
    = fetch (message s) (Z.to_nat (to_ulong (messageSize s)))
  /\ snd (dev_read s acc len)
     = {| message := message s; messageSize := 0; ioMutex := ioMutex s |}.
Proof.
  unfold dev_read, copy_to_user.
  set (n := to_ulong (messageSize s)).
  destruct (check_copy_size capacity n) eqn:Ec.
  - destruct (Z.eqb_spec (n - Z.min n (Z.of_N acc)) 0) as [E|E]; simpl.
    + intros _. replace (Z.min n (Z.of_N acc)) with n by lia. auto.
    + unfold EFAULT. discriminate.
  - destruct (Z.eqb_spec n 0) as [E|E]; simpl.
    + rewrite E in Ec. discriminate.
    + unfold EFAULT. discriminate.
Qed.

(** A read of an empty message succeeds and delivers nothing. *)
Lemma dev_read_empty (msg : Z -> byte) (mx : bool) (acc : N) (len : Z) :
  dev_read {| message := msg; messageSize := 0; ioMutex := mx |} acc len
  = (0, [], {| message := msg; messageSize := 0; ioMutex := mx |}).
Proof.
  unfold dev_read, copy_to_user. simpl. change (to_ulong 0) with 0.
  try rewrite check_copy_size_ok by (unfold capacity; lia). simpl.
  replace (Z.min 0 (Z.of_N acc)) with 0 by lia. reflexivity.
Qed.

(** After a full write of a message within capacity, [messageSize] is its
    length and kernel memory starts with it. *)
Lemma dev_write_full (s : dev_state) (m : list byte) :
  Z.of_nat (length m) <= capacity ->
  let s1 := snd (dev_write s m (Z.of_nat (length m))) in
  messageSize s1 = Z.of_nat (length m)
  /\ ioMutex s1 = ioMutex s
  /\ fetch (message s1) (length m) = m.
Proof.
  intros Hm s1. unfold capacity in Hm. subst s1. unfold dev_write.
  destruct (copy_from_user (message s) m (Z.of_nat (length m))) as [m' c] eqn:E.
  simpl. split; [apply to_short_small; lia|]. split; [reflexivity|].
  apply fetch_nth. intros i Hi.
  pose proof (copy_from_user_full (message s) m i
                (ltac:(unfold capacity; lia)) Hi) as H.
  rewrite E in H. exact H.
Qed.

(** Reading right after a full write within capacity: a successful read
    delivers the message and drains it. *)
Lemma read_after_write (s : dev_state) (m : list byte) (acc : N) (len : Z) :
  Z.of_nat (length m) <= capacity ->
  let s1 := snd (dev_write s m (Z.of_nat (length m))) in
  fst (fst (dev_read s1 acc len)) = 0 ->
  snd (fst (dev_read s1 acc len)) = m
  /\ snd (dev_read s1 acc len)
     = {| message := message s1; messageSize := 0; ioMutex := ioMutex s |}.
Proof.
  intros Hm s1 Hok.
  destruct (dev_write_full s m Hm) as (Hsz & Hmx & Hfetch). fold s1 in Hsz, Hmx, Hfetch.
  destruct (dev_read_success s1 acc len Hok) as [Hout Hst].
  rewrite Hsz, to_ulong_small, Nat2Z.id in Hout
    by (unfold capacity in Hm; lia).
  rewrite Hst, Hmx. split; [congruence | reflexivity].
Qed.

(** [dev_read] and [dev_write] do not touch the mutex. *)
Lemma dev_read_ioMutex (s : dev_state) (acc : N) (len : Z) :
  ioMutex (snd (dev_read s acc len)) = ioMutex s.
Proof.
  unfold dev_read. destruct (copy_to_user _ _ _) as [out e].
  destruct (e =? 0); reflexivity.
Qed.

Lemma dev_write_ioMutex (s : dev_state) (src : list byte) (len : Z) :
  ioMutex (snd (dev_write s src len)) = ioMutex s.
Proof.
  unfold dev_write. destruct (copy_from_user _ _ _). reflexivity.
Qed.

(** The gate invariant of the dispatched system: the mutex is free and no
    file is open, or it is held and exactly one file is open. *)
Definition gate_inv (s : sys) : Prop :=
  (ioMutex (dev s) = false /\ opened s = [])
  \/ (exists f, ioMutex (dev s) = true /\ opened s = [f]).

Lemma is_open_single (f g : file) (d : dev_state) (n : file) :
  is_open {| dev := d; opened := [f]; next_file := n |} g = Nat.eqb g f.
Proof. unfold is_open. simpl. apply orb_false_r. Qed.

Lemma gate_inv_step (s : sys) (c : call) :
  gate_inv s -> gate_inv (snd (sys_step s c)).
Proof.
  destruct s as [d o n]. unfold gate_inv. simpl.
  intros [[Hm Ho] | [f [Hm Ho]]]; subst o;
    destruct c as [|g acc len|g src len|g]; simpl.
  - unfold dev_open. rewrite Hm. simpl. right. exists n. auto.
  - left. auto.
  - left. auto.
  - left. auto.
  - unfold dev_open. rewrite Hm. simpl. right. exists f. auto.
  - rewrite is_open_single. destruct (Nat.eqb g f); simpl.
    + destruct (dev_read d acc len) as [[r out] d'] eqn:E. simpl.
      right. exists f. split; [|reflexivity].
      rewrite <- Hm, <- (dev_read_ioMutex d acc len), E. reflexivity.
    + right. exists f. auto.
  - rewrite is_open_single. destruct (Nat.eqb g f); simpl.
    + destruct (dev_write d src len) as [r d'] eqn:E. simpl.
      right. exists f. split; [|reflexivity].
      rewrite <- Hm, <- (dev_write_ioMutex d src len), E. reflexivity.
    + right. exists f. auto.
  - rewrite is_open_single. destruct (Nat.eqb_spec g f); simpl.
    + subst g. left. split; [reflexivity|].
      destruct (Nat.eq_dec f f); [reflexivity | contradiction].
    + right. exists f. auto.
Qed.

Lemma reachable_gate_inv (s : sys) : reachable s -> gate_inv s.
Proof.
  induction 1 as [|s c _ IH].
  - left. split; reflexivity.
  - apply gate_inv_step, IH.
Qed.

(** ** Claims *)

(** [x_payload n]: [n] bytes of ['x'], all readable by the kernel. *)
Definition x_payload (n : nat) : list byte := repeat bx n.

(** State after [open] and a write of 300 bytes of ['x'] (scenario C). *)
Definition scenario_c : Z * dev_state :=
  dev_write (snd (dev_open init_state)) (x_payload 300) 300.

(** C1 does not hold on the code: a write of 300 bytes returns 300, not
    256, so no truncation is reported, and [messageSize] becomes 300.  The
    copy itself is refused by [copy_from_user]'s object-size check, so no
    byte of [message] changes (nothing is accepted, although 300 is
    reported). *)
Lemma write_300_not_truncated :
  fst scenario_c = 300
  /\ messageSize (snd scenario_c) = 300
  /\ snd (copy_from_user (message init_state) (x_payload 300) 300) = 300
  /\ (forall i, message (snd scenario_c) i = message init_state i).
Proof.
  split; [reflexivity|]. split; [reflexivity|]. split; [reflexivity|].
  intros i. reflexivity.
Qed.

(** C2 does not hold on the code: [messageSize] leaves [0 .. 256] after one write of an
    over-long payload: 300 after a 300-byte write, and negative (the
    [short] wraps) after a 40000-byte write. *)
Lemma messageSize_out_of_range :
  messageSize (snd (dev_write (snd (dev_open init_state)) (x_payload 300) 300))
    = 300
  /\ messageSize (snd (dev_write (snd (dev_open init_state)) [] 40000))
    = -25536.
Proof. vm_compute. split; reflexivity. Qed.

(** [hello], then 65541 bytes of ['x']: 65541 wraps to 5 as a [short]. *)
Definition scenario_wrap : dev_state :=
  snd (dev_write (snd (dev_write (snd (dev_open init_state)) hello 5))
                 (x_payload (Z.to_nat 65541)) 65541).

(** C3 does not hold on the code: after [write(hello)], a write of a
    65541-byte message [m] returns 65541 (success) but its copy is refused
    and [messageSize] wraps to 5; the next read succeeds and delivers the
    stale ["hello"], not the first bytes of [m]. *)
Lemma write_65541_read_stale :
  fst (dev_write (snd (dev_write (snd (dev_open init_state)) hello 5))
                 (x_payload (Z.to_nat 65541)) 65541) = 65541
  /\ messageSize scenario_wrap = 5
  /\ fst (dev_read scenario_wrap 256 256) = (0, hello)
  /\ hello <> firstn 5 (x_payload (Z.to_nat 65541)).
Proof.
  split; [reflexivity|]. split; [reflexivity|]. split; [reflexivity|].
  discriminate.
Qed.

(** C4: [dev_open] fails with [-EBUSY] exactly when the mutex is held; it
    then returns at once and leaves the state unchanged; on a free mutex
    (in particular right after [dev_release]) it returns 0 and takes the
    mutex. *)
Theorem dev_open_busy_iff_held (s : dev_state) :
  (fst (dev_open s) = - EBUSY <-> ioMutex s = true)
  /\ (ioMutex s = true -> dev_open s = (- EBUSY, s))
  /\ (ioMutex s = false -> fst (dev_open s) = 0 /\ ioMutex (snd (dev_open s)) = true)
  /\ fst (dev_open (snd (dev_release s))) = 0
  /\ ioMutex (snd (dev_open (snd (dev_release s)))) = true.
Proof.
  destruct s as [msg sz [|]]; unfold dev_open, EBUSY; simpl;
    repeat split; intros; try discriminate; try reflexivity.
Qed.

(** C5: when [copy_to_user] fails in [dev_read], the read returns
    [-EFAULT] and the state, [messageSize] included, is left as it was. *)
Theorem dev_read_fault_keeps_state (s : dev_state) (acc : N) (len : Z) :
  snd (copy_to_user acc (message s) (to_ulong (messageSize s))) <> 0 ->
  fst (fst (dev_read s acc len)) = - EFAULT
  /\ snd (dev_read s acc len) = s
  /\ messageSize (snd (dev_read s acc len)) = messageSize s.
Proof.
  intros Hf. unfold dev_read.
  destruct (copy_to_user acc (message s) (to_ulong (messageSize s))) as [out e].
  simpl in Hf. apply Z.eqb_neq in Hf. rewrite Hf. simpl. auto.
Qed.

Lemma dev_read_fault_keeps_state_witness :
  let s := snd (dev_write init_state hello 5) in
  snd (copy_to_user 2 (message s) (to_ulong (messageSize s))) <> 0
  /\ snd (dev_read s 2 5) = s.
Proof.
  split; [vm_compute; discriminate|].
  refine (proj1 (proj2 (dev_read_fault_keeps_state _ 2 5 _))).
  vm_compute. discriminate.
Defined.

(** C6 does not hold on the code: when [copy_from_user] fails (nothing readable at the
    user pointer), [dev_write] still returns the requested length. *)
Lemma write_fault_returns_len :
  snd (copy_from_user (message init_state) [] 5) = 5
  /\ fst (dev_write (snd (dev_open init_state)) [] 5) = 5.
Proof. split; reflexivity. Qed.



(** C8: after two full writes [a] then [b] (each within capacity), a
    successful read delivers exactly [b]. *)
Theorem overwrite_read (s : dev_state) (a b : list byte) (acc : N) (len : Z) :
  Z.of_nat (length a) <= capacity ->
  Z.of_nat (length b) <= capacity ->
  let s2 := snd (dev_write (snd (dev_write s a (Z.of_nat (length a))))
                   b (Z.of_nat (length b))) in
  fst (fst (dev_read s2 acc len)) = 0 ->
  snd (fst (dev_read s2 acc len)) = b.
Proof.
  intros _ Hb s2 Hok.
  exact (proj1 (read_after_write _ b acc len Hb Hok)).
Qed.

(** A longer first message, overwritten by a shorter one. *)
Definition abc : list byte := [x61; x62; x63; x64; x65; x66; x67].

Lemma overwrite_read_witness :
  snd (fst (dev_read (snd (dev_write (snd (dev_write init_state abc 7)) hello 5))
                     8 8)) = hello.
Proof.
  refine (overwrite_read init_state abc hello 8 8 _ _ _);
    [vm_compute; discriminate | vm_compute; discriminate | reflexivity].
Defined.

(** C10: [dev_open] followed by [dev_release] changes neither [message] nor
    [messageSize]; a message written but not read in one session is
    delivered unchanged by the first successful read of the next one. *)
Theorem open_close_frame (s : dev_state) (m : list byte) (acc : N) (len : Z) :
  (message (snd (dev_release (snd (dev_open s)))) = message s
   /\ messageSize (snd (dev_release (snd (dev_open s)))) = messageSize s)
  /\ (Z.of_nat (length m) <= capacity ->
      let s1 := snd (dev_write (snd (dev_open s)) m (Z.of_nat (length m))) in
      let s2 := snd (dev_open (snd (dev_release s1))) in
      fst (fst (dev_read s2 acc len)) = 0 ->
      snd (fst (dev_read s2 acc len)) = m).
Proof.
  split.
  - unfold dev_open; destruct (ioMutex s); split; reflexivity.
  - intros Hm s1 s2 Hok.
    destruct (dev_write_full (snd (dev_open s)) m Hm) as (Hsz & _ & Hfetch).
    fold s1 in Hsz, Hfetch.
    assert (H2 : message s2 = message s1 /\ messageSize s2 = messageSize s1)
      by (subst s2; unfold dev_open, dev_release; simpl; split; reflexivity).
    destruct H2 as [Hmsg Hsz2].
    destruct (dev_read_success s2 acc len Hok) as [Hout _]. rewrite Hout.
    rewrite Hmsg, Hsz2, Hsz, to_ulong_small, Nat2Z.id
      by (unfold capacity in Hm; lia).
    exact Hfetch.
Qed.

Lemma open_close_frame_witness :
  snd (fst (dev_read (snd (dev_open (snd (dev_release
        (snd (dev_write (snd (dev_open init_state)) hello 5)))))) 5 5)) = hello.
Proof.
  refine (proj2 (open_close_frame init_state hello 5 5) _ _);
    [vm_compute; discriminate | reflexivity].
Defined.

(** C9: in every reachable state, a step that takes the mutex from free to
    held is a successful [open(2)], which opens exactly the new file; a step
    that takes it from held to free is the final close of the one open file
    (the file whose successful open took the mutex, as only successful opens
    add open files); a close of a file that is not open reaches no handler
    and changes nothing. *)
Theorem gate_transitions (s : sys) (c : call) :
  reachable s ->
  (ioMutex (dev s) = false -> ioMutex (dev (snd (sys_step s c))) = true ->
     c = SysOpen /\ fst (sys_step s c) = 0
     /\ opened (snd (sys_step s c)) = [next_file s])
  /\ (ioMutex (dev s) = true -> ioMutex (dev (snd (sys_step s c))) = false ->
     exists f, c = SysClose f /\ opened s = [f]
               /\ opened (snd (sys_step s c)) = [])
  /\ (forall f, c = SysClose f -> is_open s f = false ->
                sys_step s c = (- EBADF, s)).
Proof.
  intros Hr. pose proof (reachable_gate_inv s Hr) as Hinv.
  split; [|split].
  - destruct s as [d o n]. unfold gate_inv in Hinv. simpl in *.
    intros Hm Hm'.
    destruct Hinv as [[_ Ho] | [f [Hf _]]]; [|congruence]. subst o.
    destruct c as [|g acc len|g src len|g]; simpl in *.
    + unfold dev_open in *. rewrite Hm in *. simpl. auto.
    + congruence.
    + congruence.
    + congruence.
  - destruct s as [d o n]. unfold gate_inv in Hinv. simpl in *.
    intros Hm Hm'.
    destruct Hinv as [[Hf _] | [f [_ Ho]]]; [congruence|]. subst o.
    destruct c as [|g acc len|g src len|g]; simpl in *;
      rewrite ?is_open_single in *.
    + unfold dev_open in *. rewrite Hm in *. simpl in *. congruence.
    + destruct (Nat.eqb g f); simpl in *; [|congruence].
      pose proof (dev_read_ioMutex d acc len) as Hw.
      destruct (dev_read d acc len) as [[r out] d']. simpl in *. congruence.
    + destruct (Nat.eqb g f); simpl in *; [|congruence].
      pose proof (dev_write_ioMutex d src len) as Hw.
      destruct (dev_write d src len) as [r d']. simpl in *. congruence.
    + destruct (Nat.eqb_spec g f); simpl in *; [|congruence].
      subst g. exists f. split; [reflexivity|]. split; [reflexivity|].
      destruct (Nat.eq_dec f f); [reflexivity | contradiction].
  - intros f -> Hf. simpl. rewrite Hf. reflexivity.
Qed.

Lemma gate_transitions_witness :
  reachable sys_init
  /\ opened (snd (sys_step sys_init SysOpen)) = [next_file sys_init].
Proof.
  split; [exact reachable_init|].
  exact (proj2 (proj2 (proj1 (gate_transitions sys_init SysOpen reachable_init)
                        eq_refl eq_refl))).
Defined.

(** ** Further properties of the code *)

(** *** Helpers *)

Lemma to_short_range (z : Z) : -32768 <= to_short z <= 32767.
Proof.
  unfold to_short. pose proof (Z.mod_pos_bound z 65536 ltac:(lia)).
  destruct (Z.geb_spec (z mod 65536) 32768); lia.
Qed.

Lemma to_ulong_neg (x : Z) : -2 ^ 63 <= x < 0 -> to_ulong x = x + 2 ^ 64.
Proof.
  intros Hx. unfold to_ulong. symmetry.
  apply Z.mod_unique with (q := -1); lia.
Qed.

Lemma PTR_ERR_errno (p : Z) :
  IS_ERR p = true -> p < 2 ^ 64 ->
  to_int (PTR_ERR p) = p - 2 ^ 64 /\ - MAX_ERRNO <= p - 2 ^ 64 < 0.
Proof.
  unfold IS_ERR, MAX_ERRNO. intros He Hp. apply Z.geb_le in He.
  split; [|lia].
  unfold PTR_ERR, to_long, to_int.
  rewrite (Z.mod_small p) by lia.
  destruct (Z.geb_spec p (2 ^ 63)); [|lia].
  rewrite <- (Z.mod_unique (p - 2 ^ 64) (2 ^ 32) (-1) (p - 2 ^ 64 + 2 ^ 32))
    by lia.
  destruct (Z.geb_spec (p - 2 ^ 64 + 2 ^ 32) (2 ^ 31)); lia.
Qed.

(** Kernel memory after a [dev_write] within capacity: the [len] bytes
    from index 0 are the readable source bytes, then zeros; nothing else
    changes. *)
Lemma dev_write_message_eq (s : dev_state) (src : list byte) (len i : Z) :
  len <= capacity ->
  message (snd (dev_write s src len)) i
  = if (0 <=? i) && (i <? len) then nth (Z.to_nat i) src x00 else message s i.
Proof.
  intros Hlen. unfold dev_write, copy_from_user.
  rewrite check_copy_size_ok by exact Hlen. simpl.
  destruct ((0 <=? i) && (i <? len)) eqn:Hr; [|reflexivity].
  apply andb_true_iff in Hr. destruct Hr as [H0 H1].
  apply Z.leb_le in H0. apply Z.ltb_lt in H1.
  destruct (Z.ltb_spec i (Z.min len (Z.of_nat (length src)))); [reflexivity|].
  symmetry. apply nth_overflow. lia.
Qed.

(** *** Extra theorems *)

(** Closes the goals of a case split on [mod_init]'s branches. *)
Ltac finish_branches :=
  repeat split; intros;
  repeat match goal with H : _ /\ _ |- _ => destruct H end;
  try lia; try discriminate; try congruence.

(** [mod_init] returns 0 exactly when [register_chrdev], [class_create]
    and [device_create] all succeed; otherwise it returns the negative
    error of the first step that failed. *)
Theorem mod_init_result (env : init_env) (m : module) :
  - 2 ^ 31 <= reg_result env < 2 ^ 31 ->
  class_result env < 2 ^ 64 -> device_result env < 2 ^ 64 ->
  (fst (fst (mod_init env m)) = 0
   <-> 0 <= reg_result env /\ IS_ERR (class_result env) = false
       /\ IS_ERR (device_result env) = false)
  /\ (reg_result env < 0 -> fst (fst (mod_init env m)) = reg_result env)
  /\ (0 <= reg_result env -> IS_ERR (class_result env) = true ->
      fst (fst (mod_init env m)) = class_result env - 2 ^ 64)
  /\ (0 <= reg_result env -> IS_ERR (class_result env) = false ->
      IS_ERR (device_result env) = true ->
      fst (fst (mod_init env m)) = device_result env - 2 ^ 64)
  /\ (fst (fst (mod_init env m)) <> 0 -> fst (fst (mod_init env m)) < 0).
Proof.
  destruct env as [r c dv]; simpl. intros Hr Hc Hd. unfold mod_init. simpl.
  destruct (Z.ltb_spec r 0).
  - simpl. finish_branches.
  - destruct (IS_ERR c) eqn:Ec.
    + destruct (PTR_ERR_errno c Ec Hc) as [E B]. simpl. rewrite E.
      finish_branches.
    + destruct (IS_ERR dv) eqn:Ed.
      * destruct (PTR_ERR_errno dv Ed Hd) as [E B]. simpl. rewrite E.
        finish_branches.
      * simpl. finish_branches.
Qed.

(** A sample error pointer, [ERR_PTR(-ENOMEM)]. *)
Definition ENOMEM_PTR : Z := 2 ^ 64 - 12.

Lemma mod_init_result_witness :
  fst (fst (mod_init (mk_init_env 240 ENOMEM_PTR 0) (mk_module 0 0 0 init_state)))
  = -12.
Proof.
  refine (proj1 (proj2 (proj2 (mod_init_result
            (mk_init_env 240 ENOMEM_PTR 0) (mk_module 0 0 0 init_state)
            _ _ _))) _ _); simpl; unfold ENOMEM_PTR; try lia; reflexivity.
Defined.

(** [mod_init] leaks nothing: when any step fails, every registration it
    made is released again, most recent first; when all succeed it holds
    the char device, the class and the device. *)
Theorem mod_init_no_leak (env : init_env) (m : module) :
  held_after [] (snd (mod_init env m))
  = if (0 <=? reg_result env) && negb (IS_ERR (class_result env))
       && negb (IS_ERR (device_result env))
    then Some [RDevice (MKDEV (reg_result env) 0); RClass (class_result env);
               RChrdev (reg_result env)]
    else Some [].
Proof.
  destruct env as [r c dv]; simpl. unfold mod_init. simpl.
  assert (Hlt : (r <? 0) = negb (0 <=? r)) by apply Z.ltb_antisym.
  rewrite Hlt.
  destruct (0 <=? r); destruct (IS_ERR c) eqn:Ec; destruct (IS_ERR dv) eqn:Ed;
    simpl; rewrite ?Hlt, ?Ec, ?Ed; simpl; rewrite ?Z.eqb_refl; reflexivity.
Qed.

(** After a successful [mod_init], [mod_exit] releases every registration
    [mod_init] made, each with the values it was created with, most recent
    first, and nothing more. *)
Theorem mod_exit_releases_all (env : init_env) (m : module) :
  0 <= reg_result env -> IS_ERR (class_result env) = false ->
  IS_ERR (device_result env) = false ->
  held_after [] (snd (mod_init env m) ++ mod_exit (snd (fst (mod_init env m))))
  = Some [].
Proof.
  destruct env as [r c dv]; simpl. intros Hr Ec Ed. unfold mod_init. simpl.
  rewrite (proj2 (Z.ltb_ge r 0) Hr). rewrite Ec, Ed. simpl.
  rewrite (proj2 (Z.ltb_ge r 0) Hr), Ec, Ed. simpl.
  rewrite !Z.eqb_refl. reflexivity.
Qed.

Lemma mod_exit_releases_all_witness :
  held_after [] (snd (mod_init (mk_init_env 240 4096 8192) (mk_module 0 0 0 init_state))
                 ++ mod_exit (snd (fst (mod_init (mk_init_env 240 4096 8192)
                                                 (mk_module 0 0 0 init_state)))))
  = Some [].
Proof.
  apply mod_exit_releases_all; [simpl; lia | reflexivity | reflexivity].
Defined.

(** [dev_read] succeeds exactly when [messageSize] is between 0 and the
    capacity 256 and the destination has room for all [messageSize]
    bytes: a negative or over-capacity size is refused by the object-size
    check, and a read never succeeds with a partial copy. *)
Theorem dev_read_success_iff (s : dev_state) (acc : N) (len : Z) :
  -32768 <= messageSize s <= 32767 ->
  (fst (fst (dev_read s acc len)) = 0
   <-> 0 <= messageSize s <= capacity /\ messageSize s <= Z.of_N acc).
Proof.
  intros Hr. unfold dev_read, copy_to_user.
  destruct (Z.ltb_spec (messageSize s) 0) as [Hneg|Hpos].
  - rewrite to_ulong_neg by lia.
    rewrite check_copy_size_big by (unfold capacity; lia).
    cbv beta iota zeta.
    destruct (Z.eqb_spec (messageSize s + 2 ^ 64) 0); [lia|].
    simpl. unfold EFAULT. split; [discriminate | lia].
  - rewrite to_ulong_small by lia.
    destruct (Z.leb_spec (messageSize s) capacity) as [Hc|Hc].
    + rewrite check_copy_size_ok by exact Hc. cbv beta iota zeta.
      destruct (Z.eqb_spec (messageSize s - Z.min (messageSize s) (Z.of_N acc)) 0);
        simpl; unfold EFAULT; split; intros; try lia; discriminate.
    + rewrite check_copy_size_big by exact Hc. cbv beta iota zeta.
      destruct (Z.eqb_spec (messageSize s) 0); [unfold capacity in Hc; lia|].
      simpl. unfold EFAULT. split; [discriminate | lia].
Qed.

Lemma dev_read_success_iff_witness :
  fst (fst (dev_read (snd (dev_write init_state hello 5)) 5 5)) = 0.
Proof.
  apply (proj2 (dev_read_success_iff (snd (dev_write init_state hello 5)) 5 5
                  ltac:(split; vm_compute; discriminate))).
  split; [split|]; vm_compute; discriminate.
Defined.

(** A write whose length wraps [messageSize] negative (as a [short]) makes
    every later read fail with [-EFAULT] without changing anything, for
    any destination smaller than 2^63 bytes, until the next write. *)
Theorem negative_size_read_faults (s : dev_state) (src : list byte)
  (len : Z) (acc : N) (len' : Z) :
  to_short len < 0 -> Z.of_N acc < 2 ^ 63 ->
  let s1 := snd (dev_write s src len) in
  fst (fst (dev_read s1 acc len')) = - EFAULT /\ snd (dev_read s1 acc len') = s1.
Proof.
  intros Hneg Hacc s1.
  assert (Hsz : messageSize s1 = to_short len)
    by (subst s1; unfold dev_write;
        destruct (copy_from_user (message s) src len); reflexivity).
  pose proof (to_short_range len) as Hr.
  assert (Hn : to_ulong (messageSize s1) = to_short len + 2 ^ 64)
    by (rewrite Hsz; apply to_ulong_neg; lia).
  unfold dev_read, copy_to_user. rewrite Hn.
  rewrite check_copy_size_big by (unfold capacity; lia).
  cbv beta iota zeta.
  destruct (Z.eqb_spec (to_short len + 2 ^ 64) 0); [lia|].
  simpl. split; reflexivity.
Qed.

Lemma negative_size_read_faults_witness :
  fst (fst (dev_read (snd (dev_write init_state [] 40000)) 100 100)) = - EFAULT.
Proof.
  refine (proj1 (negative_size_read_faults init_state [] 40000 100 100 _ _));
    [reflexivity | reflexivity].
Defined.

Lemma fetch_nth_lt (f : Z -> byte) (k n : nat) :
  (n < k)%nat -> nth n (fetch f k) x00 = f (Z.of_nat n).
Proof.
  intros Hn. unfold fetch.
  set (g := fun i => f (Z.of_nat i)).
  rewrite nth_indep with (d' := g 0%nat)
    by (rewrite length_map, length_seq; exact Hn).
  rewrite map_nth, seq_nth by exact Hn. reflexivity.
Qed.

(** A write of [len] bytes (within capacity) followed by a successful read
    delivers the bytes that were readable at the user pointer, cut to
    [len], then zero bytes up to [len]: a write whose copy faulted is read
    back zero-padded, not as an error. *)
Theorem write_then_read_padded (s : dev_state) (src : list byte) (len : Z)
  (acc : N) (len' : Z) :
  0 <= len <= capacity ->
  let s1 := snd (dev_write s src len) in
  fst (fst (dev_read s1 acc len')) = 0 ->
  snd (fst (dev_read s1 acc len'))
  = firstn (Z.to_nat len) src ++ repeat x00 (Z.to_nat len - length src).
Proof.
  intros Hlen s1 Hok. unfold capacity in Hlen.
  destruct (dev_read_success s1 acc len' Hok) as [Hout _]. rewrite Hout.
  assert (Hsz : messageSize s1 = len)
    by (subst s1; unfold dev_write;
        destruct (copy_from_user (message s) src len);
        apply to_short_small; lia).
  rewrite Hsz, to_ulong_small by lia.
  apply nth_ext with (d := x00) (d' := x00).
  - unfold fetch. rewrite length_map, length_seq, length_app, length_firstn,
      repeat_length. lia.
  - intros n Hn. unfold fetch in Hn. rewrite length_map, length_seq in Hn.
    rewrite fetch_nth_lt by exact Hn.
    subst s1. rewrite dev_write_message_eq by (unfold capacity; lia).
    destruct (Z.leb_spec 0 (Z.of_nat n)); [|lia].
    destruct (Z.ltb_spec (Z.of_nat n) len); [|lia]. simpl.
    rewrite Nat2Z.id.
    destruct (Nat.lt_ge_cases n (length src)) as [Hs|Hs].
    + rewrite app_nth1 by (rewrite length_firstn; lia).
      rewrite nth_firstn. destruct (Nat.ltb_spec n (Z.to_nat len)); [reflexivity|lia].
    + rewrite app_nth2 by (rewrite length_firstn; lia).
      rewrite nth_overflow by exact Hs. symmetry. apply nth_repeat.
Qed.

Lemma write_then_read_padded_witness :
  snd (fst (dev_read (snd (dev_write init_state [x61; x62] 4)) 4 4))
  = [x61; x62; x00; x00].
Proof.
  exact (write_then_read_padded init_state [x61; x62] 4 4 4
           ltac:(unfold capacity; lia) eq_refl).
Defined.

(** In every reachable state at most one file is open, and one is open
    exactly when the mutex is held. *)
Theorem reachable_single_open (s : sys) :
  reachable s ->
  (length (opened s) <= 1)%nat /\ (ioMutex (dev s) = true <-> opened s <> []).
Proof.
  intros Hr. destruct (reachable_gate_inv s Hr) as [[Hm Ho] | [f [Hm Ho]]];
    rewrite Hm, Ho; simpl; split; try lia; split; intros; congruence.
Qed.

Lemma reachable_single_open_witness :
  (length (opened (snd (sys_step (snd (sys_step sys_init SysOpen)) SysOpen))) <= 1)%nat.
Proof.
  exact (proj1 (reachable_single_open _
          (reachable_step _ SysOpen (reachable_step sys_init SysOpen reachable_init)))).
Defined.

(** For a message within capacity, after a full [write(m)] a
    successful read delivers exactly [m] and resets [messageSize] to 0; a
    second read right after it succeeds (returns 0, not an error),
    delivers no byte and changes nothing. *)
Theorem write_read_drain (s : dev_state) (m : list byte)
  (acc1 acc2 : N) (len1 len2 : Z) :
  Z.of_nat (length m) <= capacity ->
  let s1 := snd (dev_write s m (Z.of_nat (length m))) in
  fst (fst (dev_read s1 acc1 len1)) = 0 ->
  let s2 := snd (dev_read s1 acc1 len1) in
  snd (fst (dev_read s1 acc1 len1)) = m
  /\ messageSize s2 = 0
  /\ dev_read s2 acc2 len2 = (0, [], s2).
Proof.
  intros Hm s1 Hok s2.
  destruct (read_after_write s m acc1 len1 Hm Hok) as [Hout Hst].
  fold s1 in Hst. fold s2 in Hst.
  split; [exact Hout|]. rewrite Hst. split; [reflexivity|].
  apply dev_read_empty.
Qed.

Lemma write_read_drain_witness :
  Z.of_nat (length hello) <= capacity
  /\ fst (fst (dev_read (snd (dev_write init_state hello 5)) 5 5)) = 0
  /\ snd (fst (dev_read (snd (dev_write init_state hello 5)) 5 5)) = hello.
Proof.
  split; [vm_compute; discriminate|].
  split; [reflexivity|].
  refine (proj1 (write_read_drain init_state hello 5 0 5 0 _ _)).
  - vm_compute. discriminate.
  - reflexivity.
Defined.

